(** * Adversarial search of [minimax.js]: plain minimax and its pruned variant

    A shallow embedding of [src/src/minimax.js].  The JavaScript file
    contains five functions ([minimaxWrapper], [heuristic], [isBaseCase],
    [minimax], [minimaxAlphaBeta]); each of them is transcribed below under
    its own name, and the properties of the specification are then stated
    and proved (or refuted) about these transcriptions.

    Modelling conventions.
    - A JavaScript number that holds a score, a depth or a line count is an
      integer here ([Z]).  Comparison, negation, [Math.max] and [Math.min]
      are exact on every such number; [+], [-] and [*] are exact as long as
      the operands and the result are integers of magnitude at most
      [2^53 - 1].  A theorem that depends on the value the evaluator
      computes with [+], [-] and [*] therefore carries the hypothesis
      [countsExact], which keeps the evaluator inside that range.
    - A player mark is one of the two strings ['x'] and ['o'].
    - A state object offers [nextStates()], [nextMovePlayer] and
      [numLines(n, player)].  It is a record with these three fields; the
      successor array is a list, so a game is a finitely branching tree of
      finite height. *)

From Stdlib Require Import ZArith List Bool Lia Permutation.
Import ListNotations.
Open Scope Z_scope.

(** ** Data model *)

Inductive Player : Type :=
| MarkX   (* 'x' *)
| MarkO.  (* 'o' *)

Definition Player_eqb (p q : Player) : bool :=
  match p, q with
  | MarkX, MarkX | MarkO, MarkO => true
  | _, _ => false
  end.

#[warnings="-register-all"]
Inductive State : Type := mkState {
  nextMovePlayer : Player;
  numLines : Z -> Player -> Z;
  nextStates : list State
}.

(** ** [Math.max.apply(null, vs)] and [Math.min.apply(null, vs)]

    On an empty array JavaScript answers [-Infinity] and [Infinity].  No
    integer stands for them; the value [0] below is a placeholder, and
    [nextValues_nonempty] shows that [minimax] never reaches it. *)

Definition Math_max (vs : list Z) : Z :=
  match vs with
  | [] => 0
  | v :: vs' => fold_left Z.max vs' v
  end.

Definition Math_min (vs : list Z) : Z :=
  match vs with
  | [] => 0
  | v :: vs' => fold_left Z.min vs' v
  end.

(** ** minimaxWrapper's depth constant, [heuristic], [isBaseCase] *)

Definition DEPTH : Z := 4.

Definition advantageFunction (state : State) (player : Player) : Z :=
  fold_left
    (fun total n => total + numLines state n player * Z.pow 100 n)
    [2; 3; 4] 0.

Definition heuristic (state : State) (maximizingPlayer : Player) : Z :=
  let minimizingPlayer :=
    if Player_eqb maximizingPlayer MarkX then MarkO else MarkX in
  advantageFunction state maximizingPlayer
  - advantageFunction state minimizingPlayer.

Definition isBaseCase (state : State) (depth : Z) : bool :=
  let possibleSuccessorStates := nextStates state in
  let numberPossibleSuccessorStates :=
    Z.of_nat (length possibleSuccessorStates) in
  (numberPossibleSuccessorStates =? 0) || (depth =? 0).

(** ** [minimax] *)

Fixpoint minimax (state : State) (depth : Z) (maximizingPlayer : Player)
  {struct state} : Z :=
  if isBaseCase state depth then heuristic state maximizingPlayer
  else
    let possibleStates := nextStates state in
    let currentPlayer := nextMovePlayer state in
    let nextValues :=
      map (fun s => minimax s (depth - 1) maximizingPlayer) possibleStates in
    if Player_eqb currentPlayer maximizingPlayer
    then Math_max nextValues
    else Math_min nextValues.

(** ** [minimaxAlphaBeta]

    The two [for] loops of [minimaxAlphaBetaInner] walk the successor array
    from index 0 upwards and may leave early through [return].  Each is a
    recursion over the successors that are still to be visited, carrying the
    variables the loop assigns ([currentBest] and [alpha], or [currentBest]
    and [beta]).  [inner] stands for the recursive call
    [minimaxAlphaBetaInner(futureState, depth-1, alpha, beta)]. *)

Section Loops.
Variable inner : State -> Z -> Z -> Z.

Fixpoint maxLoop (beta : Z) (rest : list State) (currentBest alpha : Z)
  {struct rest} : Z :=
  match rest with
  | [] => currentBest
  | futureState :: rest' =>
      let value := inner futureState alpha beta in
      let currentBest := Z.max value currentBest in
      let alpha := Z.max value alpha in
      if alpha >? beta then currentBest
      else maxLoop beta rest' currentBest alpha
  end.

Fixpoint minLoop (alpha : Z) (rest : list State) (currentBest beta : Z)
  {struct rest} : Z :=
  match rest with
  | [] => currentBest
  | futureState :: rest' =>
      let value := inner futureState alpha beta in
      let currentBest := Z.min value currentBest in
      let beta := Z.min value beta in
      if alpha >? beta then currentBest
      else minLoop alpha rest' currentBest beta
  end.
End Loops.

Fixpoint minimaxAlphaBetaInner (maximizingPlayer : Player)
  (state : State) (depth alpha beta : Z) {struct state} : Z :=
  if isBaseCase state depth then heuristic state maximizingPlayer
  else
    let possibleStates := nextStates state in
    let currentPlayer := nextMovePlayer state in
    if Player_eqb currentPlayer maximizingPlayer
    then
      maxLoop
        (fun s a b => minimaxAlphaBetaInner maximizingPlayer s (depth - 1) a b)
        beta possibleStates alpha alpha
    else
      minLoop
        (fun s a b => minimaxAlphaBetaInner maximizingPlayer s (depth - 1) a b)
        alpha possibleStates beta beta.

Definition minimaxAlphaBeta (state : State) (depth : Z)
  (maximizingPlayer : Player) : Z :=
  minimaxAlphaBetaInner maximizingPlayer state depth (-10000000) 10000000.

Definition minimaxWrapper (state : State) (maximizingPlayer : Player) : Z :=
  minimaxAlphaBeta state DEPTH maximizingPlayer.

(** ** Induction over game trees

    The induction hypothesis is available for every successor of a state. *)

Fixpoint State_tree_ind (Q : State -> Prop)
  (step : forall mover lines succs,
      Forall Q succs -> Q (mkState mover lines succs))
  (state : State) {struct state} : Q state :=
  match state with
  | mkState mover lines succs =>
      step mover lines succs
        ((fix all (l : list State) : Forall Q l :=
            match l with
            | [] => Forall_nil Q
            | s :: l' => Forall_cons s (State_tree_ind Q step s) (all l')
            end) succs)
  end.

(** ** Vocabulary of the specification *)

(** The opposite of the two player marks. *)
Definition other (p : Player) : Player :=
  match p with
  | MarkX => MarkO
  | MarkO => MarkX
  end.

(** The advantage of a player as the specification words it: the sum over the
    line lengths 2, 3 and 4 of the line count times [100^length]. *)
Definition adv (P : State) (p : Player) : Z :=
  numLines P 2 p * 100 ^ 2 + numLines P 3 p * 100 ^ 3
  + numLines P 4 p * 100 ^ 4.

(** The largest integer up to which every integer is a JavaScript number
    and integer arithmetic is exact ([Number.MAX_SAFE_INTEGER]). *)
Definition MAX_SAFE_INTEGER : Z := 2 ^ 53 - 1.

(** The line counts of [P] keep [heuristic] exact: the counts of the lengths
    2, 3 and 4 are non-negative and the advantage of either player does not
    exceed [MAX_SAFE_INTEGER].  Every product and partial sum of
    [advantageFunction] then lies between 0 and [MAX_SAFE_INTEGER], and the
    difference [heuristic] returns between [- MAX_SAFE_INTEGER] and
    [MAX_SAFE_INTEGER]. *)
Definition countsExact (P : State) : Prop :=
  forall p,
    0 <= numLines P 2 p /\ 0 <= numLines P 3 p /\ 0 <= numLines P 4 p
    /\ adv P p <= MAX_SAFE_INTEGER.

(** [r] is the maximum (minimum) of the scores [vs]: it is one of them and
    bounds all of them. *)
Definition is_max_of (vs : list Z) (r : Z) : Prop :=
  In r vs /\ Forall (fun v => v <= r) vs.

Definition is_min_of (vs : list Z) (r : Z) : Prop :=
  In r vs /\ Forall (fun v => r <= v) vs.

(** The scores of the successors of [P], one ply deeper, for the fixed
    perspective [M]. *)
Definition childScores (P : State) (D : Z) (M : Player) : list Z :=
  map (fun S => minimax S (D - 1) M) (nextStates P).

(** What a call of the pruned search with the window [(a, b)] owes to the
    plain score [v] of the same position: the exact score when [v] lies in
    the window, and otherwise a result on the same side of the window. *)
Definition window_ok (v r a b : Z) : Prop :=
  (v <= a -> r <= a) /\ (b <= v -> b <= r) /\ (a <= v <= b -> r = v).

(** A recursive call [inner] is sound at [s] against the plain scores [vals]
    when it meets [window_ok] for every window [a <= b]. *)
Definition sound_call (inner : State -> Z -> Z -> Z) (vals : State -> Z)
  (s : State) : Prop :=
  forall a b, a <= b -> window_ok (vals s) (inner s a b) a b.

(** [reordered P Q]: [Q] is [P] with the successor sequence of every
    position of the tree permuted. *)
#[warnings="-register-all"]
Inductive reordered : State -> State -> Prop :=
| reordered_node : forall mover lines succs mid succs',
    Forall2 reordered succs mid ->
    Permutation mid succs' ->
    reordered (mkState mover lines succs) (mkState mover lines succs').

(** ** Sample positions

    Boards on which only lines of length 4 occur: [cx] of them for ['x'] and
    [co] for ['o']. *)

Definition fours (cx co : Z) : Z -> Player -> Z :=
  fun n p =>
    if n =? 4 then match p with MarkX => cx | MarkO => co end else 0.

(** A finished game: no successor. *)
Definition finished (mover : Player) (cx co : Z) : State :=
  mkState mover (fours cx co) [].

(** ['o'] is to move and completes a line of four with the only move. *)
Definition oWinsNext : State :=
  mkState MarkO (fours 0 0) [finished MarkX 0 1].

(** ['x'] is to move; after either move ['o'] completes a line of four. *)
Definition xIsLost : State :=
  mkState MarkX (fours 0 0) [oWinsNext; oWinsNext].

(** ['x'] is to move and has two winning moves: one completes one line of
    four, the other completes two at once.  The two positions differ only in
    the order of the successors. *)
Definition xWinsAB : State :=
  mkState MarkX (fours 0 0) [finished MarkO 1 0; finished MarkO 2 0].

Definition xWinsBA : State :=
  mkState MarkX (fours 0 0) [finished MarkO 2 0; finished MarkO 1 0].

(** A quiet position with two moves for ['x'], each answered by a finished
    game without any line. *)
Definition quiet : State :=
  mkState MarkX (fours 0 0) [finished MarkO 0 0; finished MarkO 0 0].

(** ** Leaves and height of a search

    [cutoffLeaves P D] lists, from left to right, the positions at which a
    search of [P] with depth [D] stops descending: those where [isBaseCase]
    answers true.  [height P] is the number of plies of the longest line of
    play from [P]. *)

Fixpoint cutoffLeaves (P : State) (D : Z) {struct P} : list State :=
  if isBaseCase P D then [P]
  else flat_map (fun S => cutoffLeaves S (D - 1)) (nextStates P).

Fixpoint height (P : State) : Z :=
  fold_right (fun S h => Z.max (1 + height S) h) 0 (nextStates P).

(** ** The pruned search with a record of the evaluated positions

    [minimaxAlphaBetaInnerSeen] is [minimaxAlphaBetaInner] line by line,
    returning beside the score the positions on which [heuristic] was
    called, in the order of the calls.  [subseq l1 l2]: [l1] is [l2] with
    some elements left out. *)

Section LoopsSeen.
Variable innerSeen : State -> Z -> Z -> Z * list State.

Fixpoint maxLoopSeen (beta : Z) (rest : list State) (currentBest alpha : Z)
  {struct rest} : Z * list State :=
  match rest with
  | [] => (currentBest, [])
  | futureState :: rest' =>
      let (value, seen) := innerSeen futureState alpha beta in
      let currentBest := Z.max value currentBest in
      let alpha := Z.max value alpha in
      if alpha >? beta then (currentBest, seen)
      else
        let (result, seen') := maxLoopSeen beta rest' currentBest alpha in
        (result, seen ++ seen')
  end.

Fixpoint minLoopSeen (alpha : Z) (rest : list State) (currentBest beta : Z)
  {struct rest} : Z * list State :=
  match rest with
  | [] => (currentBest, [])
  | futureState :: rest' =>
      let (value, seen) := innerSeen futureState alpha beta in
      let currentBest := Z.min value currentBest in
      let beta := Z.min value beta in
      if alpha >? beta then (currentBest, seen)
      else
        let (result, seen') := minLoopSeen alpha rest' currentBest beta in
        (result, seen ++ seen')
  end.
End LoopsSeen.

Fixpoint minimaxAlphaBetaInnerSeen (maximizingPlayer : Player)
  (state : State) (depth alpha beta : Z) {struct state} : Z * list State :=
  if isBaseCase state depth
  then (heuristic state maximizingPlayer, [state])
  else
    let possibleStates := nextStates state in
    let currentPlayer := nextMovePlayer state in
    if Player_eqb currentPlayer maximizingPlayer
    then
      maxLoopSeen
        (fun s a b =>
           minimaxAlphaBetaInnerSeen maximizingPlayer s (depth - 1) a b)
        beta possibleStates alpha alpha
    else
      minLoopSeen
        (fun s a b =>
           minimaxAlphaBetaInnerSeen maximizingPlayer s (depth - 1) a b)
        alpha possibleStates beta beta.

Inductive subseq {A : Type} : list A -> list A -> Prop :=
| subseq_nil : subseq [] []
| subseq_skip : forall x l1 l2, subseq l1 l2 -> subseq l1 (x :: l2)
| subseq_keep : forall x l1 l2, subseq l1 l2 -> subseq (x :: l1) (x :: l2).

(** A board given by its six line counts, and a position two plies short
    of the end: ['x'] chooses among three moves, ['o'] answers each with one
    of two moves.  The scores stay far below the sentinels. *)

Definition counts (x2 x3 x4 o2 o3 o4 : Z) : Z -> Player -> Z :=
  fun n p =>
    match p with
    | MarkX => if n =? 2 then x2 else if n =? 3 then x3
               else if n =? 4 then x4 else 0
    | MarkO => if n =? 2 then o2 else if n =? 3 then o3
               else if n =? 4 then o4 else 0
    end.

Definition twos (k : Z) : State :=
  mkState MarkX (counts k 0 0 0 0 0) [].

Definition reply (k1 k2 : Z) : State :=
  mkState MarkO (counts 0 0 0 0 0 0) [twos k1; twos k2].

Definition midgame : State :=
  mkState MarkX (counts 0 0 0 0 0 0) [reply 3 5; reply 2 9; reply 4 1].

(** A board on which ['x'] has nine lines of two and one line of three,
    and ['o'] two lines of three. *)
Definition threesAgainstTwos : State :=
  mkState MarkX (counts 9 1 0 0 2 0) [].

Definition midgameShuffled : State :=
  mkState MarkX (counts 0 0 0 0 0 0) [reply 9 2; reply 1 4; reply 5 3].

(** * Properties *)

(** ** Unfolding equations and elementary facts *)

Lemma Player_eqb_eq (p q : Player) : Player_eqb p q = true <-> p = q.
Proof. destruct p, q; simpl; split; congruence. Qed.

Lemma Player_eqb_neq (p q : Player) : Player_eqb p q = false <-> p <> q.
Proof. destruct p, q; simpl; split; congruence. Qed.

Lemma minimax_unfold (state : State) (depth : Z) (M : Player) :
  minimax state depth M =
  if isBaseCase state depth then heuristic state M
  else if Player_eqb (nextMovePlayer state) M
       then Math_max (childScores state depth M)
       else Math_min (childScores state depth M).
Proof. destruct state; reflexivity. Qed.

Lemma minimaxAlphaBetaInner_unfold (M : Player) (state : State)
  (depth alpha beta : Z) :
  minimaxAlphaBetaInner M state depth alpha beta =
  if isBaseCase state depth then heuristic state M
  else if Player_eqb (nextMovePlayer state) M
       then maxLoop (fun s a b => minimaxAlphaBetaInner M s (depth - 1) a b)
              beta (nextStates state) alpha alpha
       else minLoop (fun s a b => minimaxAlphaBetaInner M s (depth - 1) a b)
              alpha (nextStates state) beta beta.
Proof. destruct state; reflexivity. Qed.

Lemma isBaseCase_true_iff (state : State) (depth : Z) :
  isBaseCase state depth = true <-> depth = 0 \/ nextStates state = [].
Proof.
  unfold isBaseCase. rewrite orb_true_iff, !Z.eqb_eq.
  destruct (nextStates state) as [|s l]; simpl length.
  - intuition.
  - rewrite Nat2Z.inj_succ. split; intros [H|H]; auto; try lia; discriminate.
Qed.

Lemma isBaseCase_false_iff (state : State) (depth : Z) :
  isBaseCase state depth = false <-> depth <> 0 /\ nextStates state <> [].
Proof.
  rewrite <- not_true_iff_false, isBaseCase_true_iff. split.
  - intros H. split; intros E; apply H; auto.
  - intros [H1 H2] [E|E]; auto.
Qed.

(** [minimax] hands a non-empty array to [Math.max] and [Math.min]: the
    placeholder of [Math_max] and [Math_min] is never returned. *)
Lemma nextValues_nonempty (state : State) (depth : Z) (M : Player) :
  isBaseCase state depth = false -> childScores state depth M <> [].
Proof.
  rewrite isBaseCase_false_iff. intros [_ H] E. apply H.
  unfold childScores in E. now apply map_eq_nil in E.
Qed.

(** ** [Math.max] and [Math.min] compute the maximum and the minimum *)

Lemma fold_left_max_ge (l : list Z) (a : Z) : a <= fold_left Z.max l a.
Proof.
  revert a. induction l as [|v l IH]; intros a; simpl; [lia|].
  specialize (IH (Z.max a v)). lia.
Qed.

Lemma fold_left_max_bound (l : list Z) (a : Z) :
  Forall (fun v => v <= fold_left Z.max l a) l.
Proof.
  revert a. induction l as [|v l IH]; intros a; simpl; constructor.
  - pose proof (fold_left_max_ge l (Z.max a v)). lia.
  - apply IH.
Qed.

Lemma fold_left_max_in (l : list Z) (a : Z) :
  fold_left Z.max l a = a \/ In (fold_left Z.max l a) l.
Proof.
  revert a. induction l as [|v l IH]; intros a; simpl; [now left|].
  destruct (IH (Z.max a v)) as [E|E]; [|now right; right].
  rewrite E. destruct (Z.max_spec a v) as [[_ ->]|[_ ->]]; auto.
Qed.

Lemma fold_left_min_le (l : list Z) (a : Z) : fold_left Z.min l a <= a.
Proof.
  revert a. induction l as [|v l IH]; intros a; simpl; [lia|].
  specialize (IH (Z.min a v)). lia.
Qed.

Lemma fold_left_min_bound (l : list Z) (a : Z) :
  Forall (fun v => fold_left Z.min l a <= v) l.
Proof.
  revert a. induction l as [|v l IH]; intros a; simpl; constructor.
  - pose proof (fold_left_min_le l (Z.min a v)). lia.
  - apply IH.
Qed.

Lemma fold_left_min_in (l : list Z) (a : Z) :
  fold_left Z.min l a = a \/ In (fold_left Z.min l a) l.
Proof.
  revert a. induction l as [|v l IH]; intros a; simpl; [now left|].
  destruct (IH (Z.min a v)) as [E|E]; [|now right; right].
  rewrite E. destruct (Z.min_spec a v) as [[_ ->]|[_ ->]]; auto.
Qed.

Lemma Math_max_is_max (vs : list Z) : vs <> [] -> is_max_of vs (Math_max vs).
Proof.
  destruct vs as [|v vs]; [congruence|]. intros _. split; simpl.
  - destruct (fold_left_max_in vs v) as [E|E]; auto.
  - constructor; [apply fold_left_max_ge | apply fold_left_max_bound].
Qed.

Lemma Math_min_is_min (vs : list Z) : vs <> [] -> is_min_of vs (Math_min vs).
Proof.
  destruct vs as [|v vs]; [congruence|]. intros _. split; simpl.
  - destruct (fold_left_min_in vs v) as [E|E]; auto.
  - constructor; [apply fold_left_min_le | apply fold_left_min_bound].
Qed.

Lemma is_max_of_unique (vs : list Z) (r r' : Z) :
  is_max_of vs r -> is_max_of vs r' -> r = r'.
Proof.
  intros [I B] [I' B']. rewrite Forall_forall in B, B'.
  apply B' in I. apply B in I'. lia.
Qed.

Lemma is_min_of_unique (vs : list Z) (r r' : Z) :
  is_min_of vs r -> is_min_of vs r' -> r = r'.
Proof.
  intros [I B] [I' B']. rewrite Forall_forall in B, B'.
  apply B' in I. apply B in I'. lia.
Qed.

(** ** The static evaluator *)

Lemma advantageFunction_adv (P : State) (p : Player) :
  advantageFunction P p = adv P p.
Proof. unfold advantageFunction, adv. cbn [fold_left]. now rewrite Z.add_0_l. Qed.

Lemma minimizingPlayer_is_other (M : Player) :
  (if Player_eqb M MarkX then MarkO else MarkX) = other M.
Proof. now destruct M. Qed.

Lemma heuristic_adv (P : State) (M : Player) :
  heuristic P M = adv P M - adv P (other M).
Proof.
  unfold heuristic. now rewrite minimizingPlayer_is_other, !advantageFunction_adv.
Qed.

Lemma other_involutive (M : Player) : other (other M) = M.
Proof. now destruct M. Qed.

(** Under [countsExact] no intermediate value of the evaluator leaves the
    range in which the arithmetic of the code is exact. *)
Lemma countsExact_range (P : State) (M : Player) :
  countsExact P ->
  (forall p,
      0 <= numLines P 2 p * 100 ^ 2 <= MAX_SAFE_INTEGER
      /\ 0 <= numLines P 3 p * 100 ^ 3 <= MAX_SAFE_INTEGER
      /\ 0 <= numLines P 4 p * 100 ^ 4 <= MAX_SAFE_INTEGER
      /\ 0 <= numLines P 2 p * 100 ^ 2 + numLines P 3 p * 100 ^ 3
         <= MAX_SAFE_INTEGER
      /\ 0 <= advantageFunction P p <= MAX_SAFE_INTEGER)
  /\ - MAX_SAFE_INTEGER <= heuristic P M <= MAX_SAFE_INTEGER.
Proof.
  intros H.
  assert (R : forall p,
             0 <= numLines P 2 p * 100 ^ 2 <= MAX_SAFE_INTEGER
             /\ 0 <= numLines P 3 p * 100 ^ 3 <= MAX_SAFE_INTEGER
             /\ 0 <= numLines P 4 p * 100 ^ 4 <= MAX_SAFE_INTEGER
             /\ 0 <= numLines P 2 p * 100 ^ 2 + numLines P 3 p * 100 ^ 3
                <= MAX_SAFE_INTEGER
             /\ 0 <= advantageFunction P p <= MAX_SAFE_INTEGER).
  { intros p. destruct (H p) as (H2 & H3 & H4 & Ha).
    rewrite advantageFunction_adv. unfold adv in *.
    change (100 ^ 2) with 10000 in *. change (100 ^ 3) with 1000000 in *.
    change (100 ^ 4) with 100000000 in *. lia. }
  split; [exact R|].
  unfold heuristic. rewrite minimizingPlayer_is_other.
  destruct (R M) as (_ & _ & _ & _ & HM).
  destruct (R (other M)) as (_ & _ & _ & _ & HO). lia.
Qed.

(** C3.  The static evaluator returns the advantage of the maximizing player
    minus the advantage of the other player, where the advantage of a player
    is the sum over the line lengths 2, 3 and 4 of the number of lines of
    that length times 100 to the power of the length.  The line counts are
    non-negative integers that keep either advantage within
    [MAX_SAFE_INTEGER], the range in which the sum, the products and the
    difference of the code are exact. *)
Theorem heuristic_advantage_difference (P : State) (M : Player) :
  countsExact P ->
  heuristic P M
  = (numLines P 2 M * 100 ^ 2 + numLines P 3 M * 100 ^ 3
     + numLines P 4 M * 100 ^ 4)
    - (numLines P 2 (other M) * 100 ^ 2 + numLines P 3 (other M) * 100 ^ 3
       + numLines P 4 (other M) * 100 ^ 4).
Proof. intros _. exact (heuristic_adv P M). Qed.

Lemma countsExact_threesAgainstTwos : countsExact threesAgainstTwos.
Proof.
  intros []; vm_compute; repeat split; discriminate.
Defined.

Lemma heuristic_advantage_difference_witness :
  countsExact threesAgainstTwos
  /\ heuristic threesAgainstTwos MarkO
     = (numLines threesAgainstTwos 2 MarkO * 100 ^ 2
        + numLines threesAgainstTwos 3 MarkO * 100 ^ 3
        + numLines threesAgainstTwos 4 MarkO * 100 ^ 4)
       - (numLines threesAgainstTwos 2 (other MarkO) * 100 ^ 2
          + numLines threesAgainstTwos 3 (other MarkO) * 100 ^ 3
          + numLines threesAgainstTwos 4 (other MarkO) * 100 ^ 4).
Proof.
  split; [exact countsExact_threesAgainstTwos|].
  exact (heuristic_advantage_difference threesAgainstTwos MarkO
           countsExact_threesAgainstTwos).
Defined.

(** C8.  Antisymmetry of the evaluator: the score of a position for a player
    is the negation of its score for the other player. *)
Theorem heuristic_antisymmetric (P : State) (M : Player) :
  heuristic P M = - heuristic P (other M).
Proof. rewrite !heuristic_adv, other_involutive. ring. Qed.

(** The two scenarios of the specification: a single line of four for the
    maximizing player scores [100^4], and a board without lines scores 0. *)
Example heuristic_single_four :
  heuristic (finished MarkO 1 0) MarkX = 100 ^ 4.
Proof. reflexivity. Qed.

Example heuristic_no_lines :
  heuristic (finished MarkX 0 0) MarkX = 0
  /\ minimaxAlphaBeta quiet 2 MarkX = 0 /\ minimax quiet 2 MarkX = 0.
Proof. repeat split. Qed.

(** ** The cutoff policy *)

(** C4.  [isBaseCase] answers true exactly when the depth is 0 or the
    position has no successor, and both searches branch on this one test:
    each returns the static evaluation when it holds and descends into the
    successors when it does not. *)
Theorem isBaseCase_cutoff_policy (P : State) (D : Z) (M : Player)
  (alpha beta : Z) :
  (isBaseCase P D = true <-> D = 0 \/ length (nextStates P) = 0%nat)
  /\ minimax P D M
     = (if isBaseCase P D then heuristic P M
        else if Player_eqb (nextMovePlayer P) M
             then Math_max (map (fun S => minimax S (D - 1) M) (nextStates P))
             else Math_min (map (fun S => minimax S (D - 1) M) (nextStates P)))
  /\ minimaxAlphaBetaInner M P D alpha beta
     = (if isBaseCase P D then heuristic P M
        else if Player_eqb (nextMovePlayer P) M
             then maxLoop
                    (fun s a b => minimaxAlphaBetaInner M s (D - 1) a b)
                    beta (nextStates P) alpha alpha
             else minLoop
                    (fun s a b => minimaxAlphaBetaInner M s (D - 1) a b)
                    alpha (nextStates P) beta beta).
Proof.
  split; [|split].
  - rewrite isBaseCase_true_iff, length_zero_iff_nil. tauto.
  - apply minimax_unfold.
  - apply minimaxAlphaBetaInner_unfold.
Qed.

Lemma cutoff_minimax (P : State) (D : Z) (M : Player) :
  isBaseCase P D = true -> minimax P D M = heuristic P M.
Proof. intros H. now rewrite minimax_unfold, H. Qed.

Lemma cutoff_minimaxAlphaBetaInner (M : Player) (P : State) (D a b : Z) :
  isBaseCase P D = true -> minimaxAlphaBetaInner M P D a b = heuristic P M.
Proof. intros H. now rewrite minimaxAlphaBetaInner_unfold, H. Qed.

(** C6.  A position without successors is scored by the static evaluator,
    at every depth [D >= 0] and by both searches. *)
Theorem no_successors_static_score (P : State) (D : Z) (M : Player) :
  nextStates P = [] -> 0 <= D ->
  minimax P D M = heuristic P M /\ minimaxAlphaBeta P D M = heuristic P M.
Proof.
  intros H _.
  assert (B : isBaseCase P D = true) by (apply isBaseCase_true_iff; auto).
  split.
  - now apply cutoff_minimax.
  - now apply cutoff_minimaxAlphaBetaInner.
Qed.

Lemma no_successors_static_score_witness :
  (nextStates (finished MarkX 1 0) = [] /\ 0 <= 3)
  /\ minimax (finished MarkX 1 0) 3 MarkX = heuristic (finished MarkX 1 0) MarkX
  /\ minimaxAlphaBeta (finished MarkX 1 0) 3 MarkX
     = heuristic (finished MarkX 1 0) MarkX.
Proof.
  split; [split; [reflexivity | discriminate]|].
  apply (no_successors_static_score (finished MarkX 1 0) 3 MarkX);
    [reflexivity | discriminate].
Defined.

(** C7.  At depth 0 both searches return the static evaluation. *)
Theorem depth_zero_static_score (P : State) (M : Player) :
  minimax P 0 M = heuristic P M /\ minimaxAlphaBeta P 0 M = heuristic P M.
Proof.
  assert (B : isBaseCase P 0 = true) by (apply isBaseCase_true_iff; auto).
  split.
  - now apply cutoff_minimax.
  - now apply cutoff_minimaxAlphaBetaInner.
Qed.

(** ** The decision wrapper *)

(** C9.  [minimaxWrapper] is the pruned search at the configured depth, and
    that depth is the constant 4. *)
Theorem minimaxWrapper_pruned_at_DEPTH (P : State) (M : Player) :
  minimaxWrapper P M = minimaxAlphaBeta P DEPTH M /\ DEPTH = 4.
Proof. split; reflexivity. Qed.

(** ** Plain search *)

(** C2.  When the cutoff does not fire, [minimax] is the maximum of the
    scores of the successors one ply deeper if the mover is the maximizing
    player and the minimum of the same scores otherwise; the successors are
    scored with the same perspective [M]. *)
Theorem minimax_max_or_min_of_children (P : State) (D : Z) (M : Player) :
  isBaseCase P D = false ->
  (nextMovePlayer P = M ->
   is_max_of (map (fun S => minimax S (D - 1) M) (nextStates P))
     (minimax P D M))
  /\ (nextMovePlayer P <> M ->
      is_min_of (map (fun S => minimax S (D - 1) M) (nextStates P))
        (minimax P D M)).
Proof.
  intros B. pose proof (nextValues_nonempty P D M B) as NE.
  rewrite minimax_unfold, B. fold (childScores P D M). split; intros E.
  - apply Player_eqb_eq in E. rewrite E. now apply Math_max_is_max.
  - apply Player_eqb_neq in E. rewrite E. now apply Math_min_is_min.
Qed.

Lemma minimax_max_or_min_of_children_witness :
  isBaseCase xWinsAB 1 = false
  /\ (nextMovePlayer xWinsAB = MarkX ->
      is_max_of (map (fun S => minimax S (1 - 1) MarkX) (nextStates xWinsAB))
        (minimax xWinsAB 1 MarkX))
  /\ (nextMovePlayer xWinsAB <> MarkX ->
      is_min_of (map (fun S => minimax S (1 - 1) MarkX) (nextStates xWinsAB))
        (minimax xWinsAB 1 MarkX)).
Proof.
  split; [reflexivity|].
  apply (minimax_max_or_min_of_children xWinsAB 1 MarkX). reflexivity.
Defined.

(** ** Pruned search: the running best never leaves the incoming bound *)

Lemma maxLoop_ge_currentBest (inner : State -> Z -> Z -> Z) (beta : Z)
  (rest : list State) :
  forall currentBest alpha,
    currentBest <= maxLoop inner beta rest currentBest alpha.
Proof.
  induction rest as [|s rest IH]; intros cb a; simpl; [lia|].
  destruct (Z.max (inner s a beta) a >? beta); [lia|].
  specialize (IH (Z.max (inner s a beta) cb) (Z.max (inner s a beta) a)). lia.
Qed.

Lemma minLoop_le_currentBest (inner : State -> Z -> Z -> Z) (alpha : Z)
  (rest : list State) :
  forall currentBest beta,
    minLoop inner alpha rest currentBest beta <= currentBest.
Proof.
  induction rest as [|s rest IH]; intros cb b; simpl; [lia|].
  destruct (alpha >? Z.min (inner s alpha b) b); [lia|].
  specialize (IH (Z.min (inner s alpha b) cb) (Z.min (inner s alpha b) b)).
  lia.
Qed.

Lemma inner_clamped (M : Player) (P : State) (D alpha beta : Z) :
  isBaseCase P D = false ->
  (nextMovePlayer P = M -> alpha <= minimaxAlphaBetaInner M P D alpha beta)
  /\ (nextMovePlayer P <> M ->
      minimaxAlphaBetaInner M P D alpha beta <= beta).
Proof.
  intros B. rewrite minimaxAlphaBetaInner_unfold, B. split; intros E.
  - apply Player_eqb_eq in E. rewrite E. apply maxLoop_ge_currentBest.
  - apply Player_eqb_neq in E. rewrite E. apply minLoop_le_currentBest.
Qed.

(** C10.  When the cutoff does not fire, a call of [minimaxAlphaBetaInner]
    at a position where the maximizing player moves returns at least the
    incoming [alpha], and at any other position at most the incoming [beta];
    in particular the pruned search stays above the sentinel [-10000000] in
    the first case and below the sentinel [10000000] in the second. *)
Theorem minimaxAlphaBetaInner_clamped_by_bound (M : Player) (P : State)
  (D alpha beta : Z) :
  isBaseCase P D = false ->
  ((nextMovePlayer P = M -> alpha <= minimaxAlphaBetaInner M P D alpha beta)
   /\ (nextMovePlayer P <> M ->
       minimaxAlphaBetaInner M P D alpha beta <= beta))
  /\ ((nextMovePlayer P = M -> - 10000000 <= minimaxAlphaBeta P D M)
      /\ (nextMovePlayer P <> M -> minimaxAlphaBeta P D M <= 10000000)).
Proof.
  intros B. split.
  - now apply inner_clamped.
  - unfold minimaxAlphaBeta. now apply inner_clamped.
Qed.

Lemma minimaxAlphaBetaInner_clamped_by_bound_witness :
  isBaseCase xIsLost 2 = false
  /\ ((nextMovePlayer xIsLost = MarkX ->
       5 <= minimaxAlphaBetaInner MarkX xIsLost 2 5 9)
      /\ (nextMovePlayer xIsLost <> MarkX ->
          minimaxAlphaBetaInner MarkX xIsLost 2 5 9 <= 9))
  /\ ((nextMovePlayer xIsLost = MarkX ->
       - 10000000 <= minimaxAlphaBeta xIsLost 2 MarkX)
      /\ (nextMovePlayer xIsLost <> MarkX ->
          minimaxAlphaBeta xIsLost 2 MarkX <= 10000000)).
Proof.
  split; [reflexivity|].
  apply (minimaxAlphaBetaInner_clamped_by_bound MarkX xIsLost 2 5 9).
  reflexivity.
Defined.

(** ** Pruned search against plain search

    For a window [alpha <= beta] the pruned search returns the plain score
    whenever that score lies inside the window, and a value on the correct
    side of the window otherwise. *)

Lemma fold_left_max_init (l : list Z) (a b : Z) :
  fold_left Z.max l (Z.max a b) = Z.max a (fold_left Z.max l b).
Proof.
  revert b. induction l as [|v l IH]; intros b; simpl; [reflexivity|].
  now rewrite <- Z.max_assoc, IH.
Qed.

Lemma fold_left_min_init (l : list Z) (a b : Z) :
  fold_left Z.min l (Z.min a b) = Z.min a (fold_left Z.min l b).
Proof.
  revert b. induction l as [|v l IH]; intros b; simpl; [reflexivity|].
  now rewrite <- Z.min_assoc, IH.
Qed.

Lemma fold_left_max_Math_max (l : list Z) (a : Z) :
  l <> [] -> fold_left Z.max l a = Z.max a (Math_max l).
Proof.
  destruct l as [|v l]; [congruence|]. intros _. simpl.
  apply fold_left_max_init.
Qed.

Lemma fold_left_min_Math_min (l : list Z) (a : Z) :
  l <> [] -> fold_left Z.min l a = Z.min a (Math_min l).
Proof.
  destruct l as [|v l]; [congruence|]. intros _. simpl.
  apply fold_left_min_init.
Qed.

Section Window.
Variable inner : State -> Z -> Z -> Z.
Variable vals : State -> Z.

Local Notation sound := (sound_call inner vals).

Lemma maxLoop_exact (rest : list State) :
  Forall sound rest ->
  forall a beta, a <= beta ->
    Forall (fun s => vals s <= beta) rest ->
    maxLoop inner beta rest a a = fold_left Z.max (map vals rest) a.
Proof.
  induction 1 as [|s rest Hs _ IH]; intros a beta Hab Hle; [reflexivity|].
  inversion Hle as [|? ? Hv Hrest]; subst. simpl.
  destruct (Hs a beta Hab) as (Hlow & _ & Hmid).
  assert (E : Z.max (inner s a beta) a = Z.max a (vals s)).
  { destruct (Z_le_gt_dec (vals s) a) as [L|G].
    - specialize (Hlow L). lia.
    - rewrite Hmid by lia. apply Z.max_comm. }
  rewrite E. destruct (Z.gtb_spec (Z.max a (vals s)) beta) as [G|L]; [lia|].
  now apply IH.
Qed.

Lemma maxLoop_high (rest : list State) :
  Forall sound rest ->
  forall a beta, a <= beta ->
    Exists (fun s => beta <= vals s) rest ->
    beta <= maxLoop inner beta rest a a.
Proof.
  induction 1 as [|s rest Hs _ IH]; intros a beta Hab Hex;
    [inversion Hex|]. simpl.
  destruct (Z.gtb_spec (Z.max (inner s a beta) a) beta) as [G|L]; [lia|].
  inversion Hex as [? ? Hv|? ? Hrest]; subst.
  - destruct (Hs a beta Hab) as (_ & Hhigh & _). specialize (Hhigh Hv).
    pose proof (maxLoop_ge_currentBest inner beta rest
                  (Z.max (inner s a beta) a) (Z.max (inner s a beta) a)).
    lia.
  - now apply IH.
Qed.

Lemma minLoop_exact (rest : list State) :
  Forall sound rest ->
  forall alpha b, alpha <= b ->
    Forall (fun s => alpha <= vals s) rest ->
    minLoop inner alpha rest b b = fold_left Z.min (map vals rest) b.
Proof.
  induction 1 as [|s rest Hs _ IH]; intros alpha b Hab Hle; [reflexivity|].
  inversion Hle as [|? ? Hv Hrest]; subst. simpl.
  destruct (Hs alpha b Hab) as (_ & Hhigh & Hmid).
  assert (E : Z.min (inner s alpha b) b = Z.min b (vals s)).
  { destruct (Z_le_gt_dec b (vals s)) as [L|G].
    - specialize (Hhigh L). lia.
    - rewrite Hmid by lia. apply Z.min_comm. }
  rewrite E. destruct (Z.gtb_spec alpha (Z.min b (vals s))) as [G|L]; [lia|].
  now apply IH.
Qed.

Lemma minLoop_low (rest : list State) :
  Forall sound rest ->
  forall alpha b, alpha <= b ->
    Exists (fun s => vals s <= alpha) rest ->
    minLoop inner alpha rest b b <= alpha.
Proof.
  induction 1 as [|s rest Hs _ IH]; intros alpha b Hab Hex;
    [inversion Hex|]. simpl.
  destruct (Z.gtb_spec alpha (Z.min (inner s alpha b) b)) as [G|L]; [lia|].
  inversion Hex as [? ? Hv|? ? Hrest]; subst.
  - destruct (Hs alpha b Hab) as (Hlow & _ & _). specialize (Hlow Hv).
    pose proof (minLoop_le_currentBest inner alpha rest
                  (Z.min (inner s alpha b) b) (Z.min (inner s alpha b) b)).
    lia.
  - now apply IH.
Qed.
End Window.

Lemma minimaxAlphaBetaInner_window (M : Player) (state : State) :
  forall depth alpha beta, alpha <= beta ->
    window_ok (minimax state depth M)
      (minimaxAlphaBetaInner M state depth alpha beta) alpha beta.
Proof.
  induction state as [mover lines succs IH] using State_tree_ind.
  intros depth alpha beta Hab.
  rewrite minimax_unfold, minimaxAlphaBetaInner_unfold.
  destruct (isBaseCase (mkState mover lines succs) depth) eqn:B.
  { unfold window_ok. lia. }
  pose proof (nextValues_nonempty _ _ M B) as NE.
  unfold childScores in *. cbn [nextStates nextMovePlayer] in *.
  set (vals := fun S => minimax S (depth - 1) M) in *.
  set (inner := fun s a b => minimaxAlphaBetaInner M s (depth - 1) a b).
  assert (Hsound : Forall (sound_call inner vals) succs).
  { revert IH. apply Forall_impl. intros s Hs a b. apply Hs. }
  destruct (Player_eqb mover M).
  - destruct (Math_max_is_max _ NE) as [Hin Hall].
    set (v := Math_max (map vals succs)) in *.
    destruct (Z_le_gt_dec v beta) as [L|G].
    + rewrite (maxLoop_exact inner vals succs Hsound alpha beta Hab).
      * rewrite fold_left_max_Math_max by assumption. fold v.
        unfold window_ok. lia.
      * rewrite Forall_map in Hall. revert Hall. apply Forall_impl.
        intros s Hs. lia.
    + assert (Hex : Exists (fun s => beta <= vals s) succs).
      { apply in_map_iff in Hin. destruct Hin as (s & Es & Is).
        apply Exists_exists. exists s. split; [assumption | lia]. }
      pose proof (maxLoop_high inner vals succs Hsound alpha beta Hab Hex).
      unfold window_ok. lia.
  - destruct (Math_min_is_min _ NE) as [Hin Hall].
    set (v := Math_min (map vals succs)) in *.
    destruct (Z_le_gt_dec alpha v) as [L|G].
    + rewrite (minLoop_exact inner vals succs Hsound alpha beta Hab).
      * rewrite fold_left_min_Math_min by assumption. fold v.
        unfold window_ok. lia.
      * rewrite Forall_map in Hall. revert Hall. apply Forall_impl.
        intros s Hs. lia.
    + assert (Hex : Exists (fun s => vals s <= alpha) succs).
      { apply in_map_iff in Hin. destruct Hin as (s & Es & Is).
        apply Exists_exists. exists s. split; [assumption | lia]. }
      pose proof (minLoop_low inner vals succs Hsound alpha beta Hab Hex).
      unfold window_ok. lia.
Qed.

(** The pruned search agrees with the plain search on every position whose
    plain score lies between the two sentinels. *)
Lemma minimaxAlphaBeta_exact_between_sentinels (P : State) (D : Z)
  (M : Player) :
  - 10000000 <= minimax P D M <= 10000000 ->
  minimaxAlphaBeta P D M = minimax P D M.
Proof.
  intros Hv. unfold minimaxAlphaBeta.
  destruct (minimaxAlphaBetaInner_window M P D (- 10000000) 10000000)
    as (_ & _ & Hmid); [lia|].
  now apply Hmid.
Qed.

(** Outside the sentinels the pruned search still lands on the side of the
    sentinel the plain score is on. *)
Lemma minimaxAlphaBeta_beyond_sentinels (P : State) (D : Z) (M : Player) :
  (minimax P D M <= - 10000000 -> minimaxAlphaBeta P D M <= - 10000000)
  /\ (10000000 <= minimax P D M -> 10000000 <= minimaxAlphaBeta P D M).
Proof.
  unfold minimaxAlphaBeta.
  destruct (minimaxAlphaBetaInner_window M P D (- 10000000) 10000000)
    as (Hlow & Hhigh & _); [lia|]. now split.
Qed.

(** C1.  On the lost position [xIsLost], searched two plies deep for ['x'],
    the plain search returns [-100000000] and the pruned search returns the
    sentinel [-10000000]: the two searches disagree.  The running best of
    the root is seeded with the sentinel, which the evaluator's weight
    [100^4] of a single line of four already exceeds. *)
Theorem minimaxAlphaBeta_differs_on_lost_position :
  minimax xIsLost 2 MarkX = - 100000000
  /\ minimaxAlphaBeta xIsLost 2 MarkX = - 10000000
  /\ minimaxAlphaBeta xIsLost 2 MarkX <> minimax xIsLost 2 MarkX.
Proof.
  assert (Hplain : minimax xIsLost 2 MarkX = - 100000000)
    by (vm_compute; reflexivity).
  assert (Hpruned : minimaxAlphaBeta xIsLost 2 MarkX = - 10000000)
    by (vm_compute; reflexivity).
  repeat split; try assumption.
  rewrite Hplain, Hpruned. discriminate.
Qed.

(** ** Order of the successors *)

Lemma Math_max_Permutation (l l' : list Z) :
  Permutation l l' -> Math_max l = Math_max l'.
Proof.
  intros HP. destruct l as [|v l].
  - apply Permutation_nil in HP. now subst.
  - assert (NE : l' <> []).
    { intros ->. apply Permutation_sym, Permutation_nil in HP. discriminate. }
    apply (is_max_of_unique l').
    + destruct (Math_max_is_max (v :: l)) as [Hin Hall]; [discriminate|].
      split.
      * now apply (Permutation_in _ HP).
      * now apply (Permutation_Forall HP).
    + now apply Math_max_is_max.
Qed.

Lemma Math_min_Permutation (l l' : list Z) :
  Permutation l l' -> Math_min l = Math_min l'.
Proof.
  intros HP. destruct l as [|v l].
  - apply Permutation_nil in HP. now subst.
  - assert (NE : l' <> []).
    { intros ->. apply Permutation_sym, Permutation_nil in HP. discriminate. }
    apply (is_min_of_unique l').
    + destruct (Math_min_is_min (v :: l)) as [Hin Hall]; [discriminate|].
      split.
      * now apply (Permutation_in _ HP).
      * now apply (Permutation_Forall HP).
    + now apply Math_min_is_min.
Qed.

Lemma reordered_isBaseCase (P Q : State) (D : Z) :
  reordered P Q -> isBaseCase P D = isBaseCase Q D.
Proof.
  intros R. inversion R as [mover lines succs mid succs' HF HP]; subst.
  unfold isBaseCase. cbn [nextStates].
  now rewrite (Forall2_length HF), (Permutation_length HP).
Qed.

Lemma map_ext_Forall2 (f : State -> Z) (l l' : list State) :
  Forall2 (fun s t => f s = f t) l l' -> map f l = map f l'.
Proof. induction 1; simpl; congruence. Qed.

(** The plain search does not depend on the order of the successors,
    anywhere in the tree. *)
Lemma minimax_reordered (M : Player) (P : State) :
  forall Q D, reordered P Q -> minimax P D M = minimax Q D M.
Proof.
  induction P as [mover lines succs IH] using State_tree_ind.
  intros Q D R. rewrite !minimax_unfold, (reordered_isBaseCase _ _ D R).
  inversion R as [mover' lines' succs0 mid succs' HF HP]; subst.
  unfold childScores. cbn [nextStates nextMovePlayer].
  assert (E : map (fun S => minimax S (D - 1) M) succs
              = map (fun S => minimax S (D - 1) M) mid).
  { apply map_ext_Forall2. clear R HP. induction HF as [|s t l l' Hst _ IHF].
    - constructor.
    - inversion IH as [|? ? Hs Hl]; subst. constructor; [|now apply IHF].
      now apply Hs. }
  pose proof (Permutation_map (fun S => minimax S (D - 1) M) HP) as HPm.
  rewrite E.
  now rewrite (Math_max_Permutation _ _ HPm), (Math_min_Permutation _ _ HPm).
Qed.

(** So does the pruned search, as long as the plain score lies between the
    two sentinels. *)
Lemma minimaxAlphaBeta_reordered_between_sentinels (M : Player)
  (P Q : State) (D : Z) :
  reordered P Q ->
  - 10000000 <= minimax P D M <= 10000000 ->
  minimaxAlphaBeta P D M = minimaxAlphaBeta Q D M.
Proof.
  intros R Hv.
  rewrite (minimaxAlphaBeta_exact_between_sentinels P D M Hv).
  rewrite (minimax_reordered M P Q D R) in Hv |- *.
  now rewrite (minimaxAlphaBeta_exact_between_sentinels Q D M Hv).
Qed.

Lemma reordered_xWinsAB_xWinsBA : reordered xWinsAB xWinsBA.
Proof.
  apply reordered_node
    with (mid := [finished MarkO 1 0; finished MarkO 2 0]).
  - repeat constructor;
      apply reordered_node with (mid := []); constructor.
  - apply perm_swap.
Qed.

(** C5.  [xWinsAB] and [xWinsBA] differ only in the order of their two
    successors, yet the pruned search for ['x'] at depth 1 returns
    [100000000] on the first and [200000000] on the second; the plain search
    returns [200000000] on both.  The first successor already drives
    [alpha] above the sentinel [beta = 10000000], so the loop returns before
    it sees the second. *)
Theorem minimaxAlphaBeta_depends_on_successor_order :
  reordered xWinsAB xWinsBA
  /\ minimaxAlphaBeta xWinsAB 1 MarkX = 100000000
  /\ minimaxAlphaBeta xWinsBA 1 MarkX = 200000000
  /\ minimax xWinsAB 1 MarkX = minimax xWinsBA 1 MarkX.
Proof.
  split; [exact reordered_xWinsAB_xWinsBA|].
  repeat split; vm_compute; reflexivity.
Qed.

(** * Further properties of the two searches *)

(** ** The pruned search inside and outside its window *)

(** X1.  For a window [alpha <= beta], a call of [minimaxAlphaBetaInner]
    returns the plain [minimax] score whenever that score lies in the
    window; a plain score at or below [alpha] gives a result at or below
    [alpha], and a plain score at or above [beta] a result at or above
    [beta]. *)
Theorem pruned_inner_respects_window (M : Player) (P : State)
  (D alpha beta : Z) :
  alpha <= beta ->
  (alpha <= minimax P D M <= beta ->
   minimaxAlphaBetaInner M P D alpha beta = minimax P D M)
  /\ (minimax P D M <= alpha ->
      minimaxAlphaBetaInner M P D alpha beta <= alpha)
  /\ (beta <= minimax P D M ->
      beta <= minimaxAlphaBetaInner M P D alpha beta).
Proof.
  intros Hab.
  destruct (minimaxAlphaBetaInner_window M P D alpha beta Hab)
    as (Hlow & Hhigh & Hmid).
  repeat split; assumption.
Qed.

Lemma pruned_inner_respects_window_witness :
  10000 <= 60000
  /\ (10000 <= minimax midgame 2 MarkX <= 60000 ->
      minimaxAlphaBetaInner MarkX midgame 2 10000 60000
      = minimax midgame 2 MarkX)
  /\ (minimax midgame 2 MarkX <= 10000 ->
      minimaxAlphaBetaInner MarkX midgame 2 10000 60000 <= 10000)
  /\ (60000 <= minimax midgame 2 MarkX ->
      60000 <= minimaxAlphaBetaInner MarkX midgame 2 10000 60000).
Proof.
  split; [discriminate|].
  apply (pruned_inner_respects_window MarkX midgame 2 10000 60000).
  discriminate.
Defined.

(** X2.  Whenever the plain score of a position lies between the two
    sentinels [-10000000] and [10000000], [minimaxAlphaBeta] returns exactly
    the score [minimax] returns. *)
Theorem pruned_equals_plain_between_sentinels (P : State) (D : Z)
  (M : Player) :
  - 10000000 <= minimax P D M <= 10000000 ->
  minimaxAlphaBeta P D M = minimax P D M.
Proof. apply minimaxAlphaBeta_exact_between_sentinels. Qed.

Lemma pruned_equals_plain_between_sentinels_witness :
  - 10000000 <= minimax midgame 2 MarkX <= 10000000
  /\ minimaxAlphaBeta midgame 2 MarkX = minimax midgame 2 MarkX.
Proof.
  assert (H : - 10000000 <= minimax midgame 2 MarkX <= 10000000)
    by (vm_compute; split; discriminate).
  split; [exact H|].
  exact (pruned_equals_plain_between_sentinels midgame 2 MarkX H).
Defined.

Lemma inner_at_bound (M : Player) (P : State) (D alpha beta : Z) :
  alpha <= beta -> isBaseCase P D = false ->
  (nextMovePlayer P = M -> minimax P D M <= alpha ->
   minimaxAlphaBetaInner M P D alpha beta = alpha)
  /\ (nextMovePlayer P <> M -> beta <= minimax P D M ->
      minimaxAlphaBetaInner M P D alpha beta = beta).
Proof.
  intros Hab B.
  destruct (minimaxAlphaBetaInner_window M P D alpha beta Hab)
    as (Hlow & Hhigh & _).
  destruct (inner_clamped M P D alpha beta B) as [Hge Hle].
  split; intros E Hv.
  - specialize (Hlow Hv). specialize (Hge E). lia.
  - specialize (Hhigh Hv). specialize (Hle E). lia.
Qed.

(** X3.  Below the lower sentinel the score is lost: at a position where the
    cutoff does not fire and the maximizing player is to move, a plain score
    of [-10000000] or less makes [minimaxAlphaBeta] return exactly
    [-10000000]; where the other player is to move, a plain score of
    [10000000] or more makes it return exactly [10000000]. *)
Theorem pruned_returns_sentinel_beyond_it (P : State) (D : Z) (M : Player) :
  isBaseCase P D = false ->
  (nextMovePlayer P = M -> minimax P D M <= - 10000000 ->
   minimaxAlphaBeta P D M = - 10000000)
  /\ (nextMovePlayer P <> M -> 10000000 <= minimax P D M ->
      minimaxAlphaBeta P D M = 10000000).
Proof.
  intros B. unfold minimaxAlphaBeta. apply inner_at_bound; [lia | exact B].
Qed.

Lemma pruned_returns_sentinel_beyond_it_witness :
  isBaseCase xIsLost 2 = false
  /\ (nextMovePlayer xIsLost = MarkX ->
      minimax xIsLost 2 MarkX <= - 10000000 ->
      minimaxAlphaBeta xIsLost 2 MarkX = - 10000000)
  /\ (nextMovePlayer xIsLost <> MarkX ->
      10000000 <= minimax xIsLost 2 MarkX ->
      minimaxAlphaBeta xIsLost 2 MarkX = 10000000).
Proof.
  split; [reflexivity|].
  apply (pruned_returns_sentinel_beyond_it xIsLost 2 MarkX). reflexivity.
Defined.

(** X4.  Beyond a sentinel the pruned search still reports the correct
    side: a plain score of [10000000] or more gives a pruned score of
    [10000000] or more, and a plain score of [-10000000] or less gives a
    pruned score of [-10000000] or less.  A won position is never reported
    as lost, nor a lost one as won. *)
Theorem pruned_keeps_side_beyond_sentinels (P : State) (D : Z) (M : Player) :
  (minimax P D M <= - 10000000 -> minimaxAlphaBeta P D M <= - 10000000)
  /\ (10000000 <= minimax P D M -> 10000000 <= minimaxAlphaBeta P D M).
Proof. apply minimaxAlphaBeta_beyond_sentinels. Qed.

(** ** Order of the successors, continued *)

(** X5.  Permuting the successors of every position of the tree leaves the
    score of the plain search unchanged, at every depth and for either
    perspective. *)
Theorem plain_search_order_invariant (M : Player) (P Q : State) (D : Z) :
  reordered P Q -> minimax P D M = minimax Q D M.
Proof. apply minimax_reordered. Qed.

Lemma reordered_leaf (mover : Player) (lines : Z -> Player -> Z) :
  reordered (mkState mover lines []) (mkState mover lines []).
Proof. apply reordered_node with (mid := []); constructor. Defined.

Lemma reordered_reply (k1 k2 : Z) : reordered (reply k1 k2) (reply k2 k1).
Proof.
  apply reordered_node with (mid := [twos k1; twos k2]).
  - repeat constructor; apply reordered_leaf.
  - apply perm_swap.
Defined.

Lemma reordered_midgame : reordered midgame midgameShuffled.
Proof.
  apply reordered_node with (mid := [reply 5 3; reply 9 2; reply 1 4]).
  - repeat constructor; apply reordered_reply.
  - apply Permutation_trans with (l' := [reply 9 2; reply 5 3; reply 1 4]).
    + apply perm_swap.
    + apply perm_skip. apply perm_swap.
Defined.

Lemma plain_search_order_invariant_witness :
  reordered midgame midgameShuffled
  /\ minimax midgame 2 MarkX = minimax midgameShuffled 2 MarkX.
Proof.
  split; [exact reordered_midgame|].
  exact (plain_search_order_invariant MarkX midgame midgameShuffled 2
           reordered_midgame).
Defined.

(** X6.  The pruned search is as indifferent to the order of the successors
    as the plain search, provided the plain score lies between the two
    sentinels. *)
Theorem pruned_search_order_invariant_between_sentinels (M : Player)
  (P Q : State) (D : Z) :
  reordered P Q ->
  - 10000000 <= minimax P D M <= 10000000 ->
  minimaxAlphaBeta P D M = minimaxAlphaBeta Q D M.
Proof. apply minimaxAlphaBeta_reordered_between_sentinels. Qed.

Lemma pruned_search_order_invariant_between_sentinels_witness :
  reordered midgame midgameShuffled
  /\ - 10000000 <= minimax midgame 2 MarkX <= 10000000
  /\ minimaxAlphaBeta midgame 2 MarkX = minimaxAlphaBeta midgameShuffled 2 MarkX.
Proof.
  assert (H : - 10000000 <= minimax midgame 2 MarkX <= 10000000)
    by (vm_compute; split; discriminate).
  split; [exact reordered_midgame|]. split; [exact H|].
  exact (pruned_search_order_invariant_between_sentinels MarkX midgame
           midgameShuffled 2 reordered_midgame H).
Defined.

(** ** The score is the evaluation of a position the search stops at *)

Lemma cutoffLeaves_unfold (P : State) (D : Z) :
  cutoffLeaves P D =
  if isBaseCase P D then [P]
  else flat_map (fun S => cutoffLeaves S (D - 1)) (nextStates P).
Proof. destruct P; reflexivity. Qed.

Lemma minimax_in_cutoffLeaves (M : Player) (P : State) :
  forall D, In (minimax P D M)
              (map (fun Q => heuristic Q M) (cutoffLeaves P D)).
Proof.
  induction P as [mover lines succs IH] using State_tree_ind. intros D.
  rewrite cutoffLeaves_unfold, minimax_unfold.
  destruct (isBaseCase (mkState mover lines succs) D) eqn:B;
    [now left|].
  pose proof (nextValues_nonempty _ _ M B) as NE.
  assert (Hin : In (if Player_eqb (nextMovePlayer (mkState mover lines succs)) M
                    then Math_max (childScores (mkState mover lines succs) D M)
                    else Math_min (childScores (mkState mover lines succs) D M))
                   (childScores (mkState mover lines succs) D M)).
  { destruct (Player_eqb _ M).
    - now apply Math_max_is_max.
    - now apply Math_min_is_min. }
  unfold childScores in Hin. cbn [nextStates] in *.
  apply in_map_iff in Hin. destruct Hin as (S & ES & IS).
  unfold childScores. cbn [nextStates]. rewrite <- ES.
  rewrite Forall_forall in IH. specialize (IH S IS (D - 1)).
  apply in_map_iff in IH. destruct IH as (Q & EQ & IQ).
  apply in_map_iff. exists Q. split; [assumption|].
  apply in_flat_map. exists S. now split.
Qed.

(** X7.  The score [minimax] returns is the static evaluation, for the
    maximizing player, of one of the positions at which the search stops
    descending. *)
Theorem plain_score_is_evaluation_of_a_leaf (P : State) (D : Z) (M : Player) :
  exists Q, In Q (cutoffLeaves P D) /\ minimax P D M = heuristic Q M.
Proof.
  pose proof (minimax_in_cutoffLeaves M P D) as H.
  apply in_map_iff in H. destruct H as (Q & EQ & IQ).
  exists Q. split; [assumption | now symmetry].
Qed.

Section Closed.
Variable Good : Z -> Prop.

Lemma maxLoop_closed (inner : State -> Z -> Z -> Z) (rest : list State) :
  Forall (fun s => forall a b, Good a -> Good b -> Good (inner s a b)) rest ->
  forall beta cb a, Good beta -> Good cb -> Good a ->
    Good (maxLoop inner beta rest cb a).
Proof.
  induction 1 as [|s rest Hs _ IH]; intros beta cb a Gb Gc Ga; simpl;
    [assumption|].
  specialize (Hs a beta Ga Gb).
  assert (Gc' : Good (Z.max (inner s a beta) cb))
    by (apply Z.max_case; assumption).
  assert (Ga' : Good (Z.max (inner s a beta) a))
    by (apply Z.max_case; assumption).
  destruct (_ >? beta); [assumption | now apply IH].
Qed.

Lemma minLoop_closed (inner : State -> Z -> Z -> Z) (rest : list State) :
  Forall (fun s => forall a b, Good a -> Good b -> Good (inner s a b)) rest ->
  forall alpha cb b, Good alpha -> Good cb -> Good b ->
    Good (minLoop inner alpha rest cb b).
Proof.
  induction 1 as [|s rest Hs _ IH]; intros alpha cb b Ga Gc Gb; simpl;
    [assumption|].
  specialize (Hs alpha b Ga Gb).
  assert (Gc' : Good (Z.min (inner s alpha b) cb))
    by (apply Z.min_case; assumption).
  assert (Gb' : Good (Z.min (inner s alpha b) b))
    by (apply Z.min_case; assumption).
  destruct (alpha >? _); [assumption | now apply IH].
Qed.

Lemma minimaxAlphaBetaInner_closed (M : Player) (P : State) :
  forall D a b, Good a -> Good b ->
    Forall (fun Q => Good (heuristic Q M)) (cutoffLeaves P D) ->
    Good (minimaxAlphaBetaInner M P D a b).
Proof.
  induction P as [mover lines succs IH] using State_tree_ind.
  intros D a b Ga Gb. rewrite cutoffLeaves_unfold, minimaxAlphaBetaInner_unfold.
  destruct (isBaseCase (mkState mover lines succs) D) eqn:B.
  { intros HL. now inversion HL. }
  cbn [nextStates nextMovePlayer]. intros HL.
  assert (Hs : Forall (fun s => forall a b, Good a -> Good b ->
                 Good (minimaxAlphaBetaInner M s (D - 1) a b)) succs).
  { rewrite Forall_forall in IH, HL |- *. intros s Is a' b' Ga' Gb'.
    apply IH; try assumption. apply Forall_forall. intros Q IQ.
    apply HL. apply in_flat_map. exists s. now split. }
  destruct (Player_eqb mover M).
  - now apply maxLoop_closed.
  - now apply minLoop_closed.
Qed.
End Closed.

(** X8.  The score [minimaxAlphaBeta] returns is one of the two sentinels or
    the static evaluation of one of the positions at which the search stops
    descending: the pruned search invents no other number. *)
Theorem pruned_score_is_sentinel_or_leaf (P : State) (D : Z) (M : Player) :
  minimaxAlphaBeta P D M = - 10000000
  \/ minimaxAlphaBeta P D M = 10000000
  \/ exists Q, In Q (cutoffLeaves P D)
               /\ minimaxAlphaBeta P D M = heuristic Q M.
Proof.
  unfold minimaxAlphaBeta.
  apply (minimaxAlphaBetaInner_closed
           (fun z => z = - 10000000 \/ z = 10000000
                     \/ exists Q, In Q (cutoffLeaves P D) /\ z = heuristic Q M)).
  - now left.
  - now right; left.
  - apply Forall_forall. intros Q IQ. right; right. now exists Q.
Qed.

Lemma minimax_between_leaves (P : State) (D : Z) (M : Player) (lo hi : Z) :
  Forall (fun Q => lo <= heuristic Q M <= hi) (cutoffLeaves P D) ->
  lo <= minimax P D M <= hi.
Proof.
  intros HL. pose proof (minimax_in_cutoffLeaves M P D) as H.
  apply in_map_iff in H. destruct H as (Q & EQ & IQ).
  rewrite Forall_forall in HL. rewrite <- EQ. now apply HL.
Qed.

(** X9.  If the static evaluation of every position at which the search
    stops lies between the sentinels [-10000000] and [10000000], the pruned
    and the plain search return the same score. *)
Theorem pruned_equals_plain_when_leaves_within_sentinels (P : State) (D : Z)
  (M : Player) :
  Forall (fun Q => - 10000000 <= heuristic Q M <= 10000000)
    (cutoffLeaves P D) ->
  minimaxAlphaBeta P D M = minimax P D M.
Proof.
  intros HL. apply minimaxAlphaBeta_exact_between_sentinels.
  now apply minimax_between_leaves.
Qed.

Lemma pruned_equals_plain_when_leaves_within_sentinels_witness :
  Forall (fun Q => - 10000000 <= heuristic Q MarkX <= 10000000)
    (cutoffLeaves midgame 2)
  /\ minimaxAlphaBeta midgame 2 MarkX = minimax midgame 2 MarkX.
Proof.
  assert (H : Forall (fun Q => - 10000000 <= heuristic Q MarkX <= 10000000)
                (cutoffLeaves midgame 2))
    by (repeat (apply Forall_cons; [split; vm_compute; discriminate|]);
        apply Forall_nil).
  split; [exact H|].
  exact (pruned_equals_plain_when_leaves_within_sentinels midgame 2 MarkX H).
Defined.

(** X10.  The plain score lies between any two numbers that bound the
    static evaluation of every position at which the search stops. *)
Theorem plain_score_between_leaf_bounds (P : State) (D : Z) (M : Player)
  (lo hi : Z) :
  Forall (fun Q => lo <= heuristic Q M <= hi) (cutoffLeaves P D) ->
  lo <= minimax P D M <= hi.
Proof. apply minimax_between_leaves. Qed.

Lemma plain_score_between_leaf_bounds_witness :
  Forall (fun Q => 10000 <= heuristic Q MarkX <= 90000)
    (cutoffLeaves midgame 2)
  /\ 10000 <= minimax midgame 2 MarkX <= 90000.
Proof.
  assert (H : Forall (fun Q => 10000 <= heuristic Q MarkX <= 90000)
                (cutoffLeaves midgame 2))
    by (repeat (apply Forall_cons; [split; vm_compute; discriminate|]);
        apply Forall_nil).
  split; [exact H|].
  exact (plain_score_between_leaf_bounds midgame 2 MarkX 10000 90000 H).
Defined.

(** ** Exchanging the two players *)

Lemma Player_eqb_other (p M : Player) :
  Player_eqb p (other M) = negb (Player_eqb p M).
Proof. now destruct p, M. Qed.

Lemma heuristic_other (P : State) (M : Player) :
  heuristic P (other M) = - heuristic P M.
Proof. rewrite !heuristic_adv, other_involutive. ring. Qed.

Lemma fold_left_max_opp (l : list Z) (a : Z) :
  fold_left Z.max (map Z.opp l) (- a) = - fold_left Z.min l a.
Proof.
  revert a. induction l as [|v l IH]; intros a; simpl; [reflexivity|].
  rewrite <- IH. f_equal. lia.
Qed.

Lemma fold_left_min_opp (l : list Z) (a : Z) :
  fold_left Z.min (map Z.opp l) (- a) = - fold_left Z.max l a.
Proof.
  revert a. induction l as [|v l IH]; intros a; simpl; [reflexivity|].
  rewrite <- IH. f_equal. lia.
Qed.

Lemma Math_max_opp (l : list Z) : Math_max (map Z.opp l) = - Math_min l.
Proof. destruct l as [|v l]; [reflexivity|]. apply fold_left_max_opp. Qed.

Lemma Math_min_opp (l : list Z) : Math_min (map Z.opp l) = - Math_max l.
Proof. destruct l as [|v l]; [reflexivity|]. apply fold_left_min_opp. Qed.

Lemma minimax_other (M : Player) (P : State) :
  forall D, minimax P D (other M) = - minimax P D M.
Proof.
  induction P as [mover lines succs IH] using State_tree_ind. intros D.
  rewrite !minimax_unfold.
  destruct (isBaseCase (mkState mover lines succs) D);
    [apply heuristic_other|].
  unfold childScores. cbn [nextStates nextMovePlayer].
  assert (E : map (fun S => minimax S (D - 1) (other M)) succs
              = map Z.opp (map (fun S => minimax S (D - 1) M) succs)).
  { rewrite map_map. apply map_ext_in. intros S IS.
    rewrite Forall_forall in IH. now apply IH. }
  rewrite E, Player_eqb_other, Math_max_opp, Math_min_opp.
  now destruct (Player_eqb mover M).
Qed.

(** X11.  The plain search is zero-sum: the score of a position from one
    player's perspective is the negation of its score from the other
    player's perspective, at every depth. *)
Theorem plain_search_zero_sum (P : State) (D : Z) (M : Player) :
  minimax P D (other M) = - minimax P D M.
Proof. apply minimax_other. Qed.

Lemma gtb_opp (a b : Z) : (a >? b) = (- b >? - a).
Proof.
  destruct (Z.gtb_spec a b), (Z.gtb_spec (- b) (- a)); try reflexivity; lia.
Qed.

Section Mirror.
Variables inner inner' : State -> Z -> Z -> Z.

Lemma maxLoop_mirror (rest : list State) :
  Forall (fun s => forall a b, inner' s a b = - inner s (- b) (- a)) rest ->
  forall beta cb a,
    maxLoop inner' beta rest cb a = - minLoop inner (- beta) rest (- cb) (- a).
Proof.
  induction 1 as [|s rest Hs _ IH]; intros beta cb a; simpl; [lia|].
  rewrite Hs. set (v := inner s (- beta) (- a)).
  replace (Z.max (- v) cb) with (- Z.min v (- cb)) by lia.
  replace (Z.max (- v) a) with (- Z.min v (- a)) by lia.
  rewrite (gtb_opp (- Z.min v (- a)) beta), Z.opp_involutive.
  destruct (- beta >? Z.min v (- a)); [reflexivity|].
  rewrite IH. now rewrite !Z.opp_involutive.
Qed.

Lemma minLoop_mirror (rest : list State) :
  Forall (fun s => forall a b, inner' s a b = - inner s (- b) (- a)) rest ->
  forall alpha cb b,
    minLoop inner' alpha rest cb b
    = - maxLoop inner (- alpha) rest (- cb) (- b).
Proof.
  induction 1 as [|s rest Hs _ IH]; intros alpha cb b; simpl; [lia|].
  rewrite Hs. set (v := inner s (- b) (- alpha)).
  replace (Z.min (- v) cb) with (- Z.max v (- cb)) by lia.
  replace (Z.min (- v) b) with (- Z.max v (- b)) by lia.
  rewrite (gtb_opp alpha (- Z.max v (- b))), Z.opp_involutive.
  destruct (Z.max v (- b) >? - alpha); [reflexivity|].
  rewrite IH. now rewrite !Z.opp_involutive.
Qed.
End Mirror.

Lemma minimaxAlphaBetaInner_other (M : Player) (P : State) :
  forall D a b,
    minimaxAlphaBetaInner (other M) P D a b
    = - minimaxAlphaBetaInner M P D (- b) (- a).
Proof.
  induction P as [mover lines succs IH] using State_tree_ind. intros D a b.
  rewrite !minimaxAlphaBetaInner_unfold.
  destruct (isBaseCase (mkState mover lines succs) D);
    [apply heuristic_other|].
  cbn [nextStates nextMovePlayer]. rewrite Player_eqb_other.
  assert (Hs : Forall (fun s => forall a b,
                 minimaxAlphaBetaInner (other M) s (D - 1) a b
                 = - minimaxAlphaBetaInner M s (D - 1) (- b) (- a)) succs).
  { revert IH. apply Forall_impl. intros s Hs a' b'. apply Hs. }
  destruct (Player_eqb mover M); cbn [negb].
  - apply (minLoop_mirror
             (fun s a b => minimaxAlphaBetaInner M s (D - 1) a b)
             (fun s a b => minimaxAlphaBetaInner (other M) s (D - 1) a b)
             succs Hs).
  - apply (maxLoop_mirror
             (fun s a b => minimaxAlphaBetaInner M s (D - 1) a b)
             (fun s a b => minimaxAlphaBetaInner (other M) s (D - 1) a b)
             succs Hs).
Qed.

(** X12.  The pruned search is zero-sum as well: exchanging the perspective
    negates the score of [minimaxAlphaBeta], and for the inner recursion it
    negates the score once the window [(alpha, beta)] is mirrored to
    [(-beta, -alpha)].  The two sentinels are each other's negation, so the
    top-level window is its own mirror image. *)
Theorem pruned_search_zero_sum (P : State) (D : Z) (M : Player)
  (alpha beta : Z) :
  minimaxAlphaBeta P D (other M) = - minimaxAlphaBeta P D M
  /\ minimaxAlphaBetaInner (other M) P D alpha beta
     = - minimaxAlphaBetaInner M P D (- beta) (- alpha).
Proof.
  split.
  - unfold minimaxAlphaBeta. now rewrite minimaxAlphaBetaInner_other.
  - apply minimaxAlphaBetaInner_other.
Qed.

(** ** Depth beyond the end of the game *)

Lemma height_unfold (P : State) :
  height P = fold_right (fun S h => Z.max (1 + height S) h) 0 (nextStates P).
Proof. destruct P; reflexivity. Qed.

Lemma height_nonneg (P : State) : 0 <= height P.
Proof.
  rewrite height_unfold.
  induction (nextStates P) as [|S l IH]; cbn [fold_right]; lia.
Qed.

Lemma height_successor (P S : State) :
  In S (nextStates P) -> 1 + height S <= height P.
Proof.
  rewrite (height_unfold P).
  induction (nextStates P) as [|S' l IH]; cbn [fold_right In]; [tauto|].
  intros [->|I]; [lia|]. specialize (IH I). lia.
Qed.

Lemma isBaseCase_deep (P : State) (D D' : Z) :
  D < 0 \/ height P <= D -> D' < 0 \/ height P <= D' ->
  isBaseCase P D = isBaseCase P D'.
Proof.
  intros H H'. destruct (nextStates P) as [|S l] eqn:E.
  - transitivity true; [|symmetry]; apply isBaseCase_true_iff; auto.
  - assert (I : In S (nextStates P)) by (rewrite E; now left).
    pose proof (height_successor P S I). pose proof (height_nonneg S).
    transitivity false; [|symmetry]; apply isBaseCase_false_iff;
      (split; [lia | rewrite E; discriminate]).
Qed.

Lemma deep_successor (P S : State) (D : Z) :
  In S (nextStates P) -> D < 0 \/ height P <= D ->
  D - 1 < 0 \/ height S <= D - 1.
Proof. intros I H. pose proof (height_successor P S I). lia. Qed.

Lemma minimax_deep (M : Player) (P : State) :
  forall D D', D < 0 \/ height P <= D -> D' < 0 \/ height P <= D' ->
    minimax P D M = minimax P D' M.
Proof.
  induction P as [mover lines succs IH] using State_tree_ind.
  intros D D' H H'.
  rewrite !minimax_unfold, (isBaseCase_deep _ D D' H H').
  assert (E : childScores (mkState mover lines succs) D M
              = childScores (mkState mover lines succs) D' M).
  { unfold childScores. apply map_ext_in. intros S IS.
    rewrite Forall_forall in IH. cbn [nextStates] in IS.
    apply (IH S IS); now apply (deep_successor (mkState mover lines succs)). }
  now rewrite E.
Qed.

(** X13.  Once the depth is at least the height of the game tree below a
    position, searching deeper does not change the plain score; a negative
    depth never reaches 0 and gives that same score of the whole tree. *)
Theorem plain_search_depth_saturates (P : State) (D D' : Z) (M : Player) :
  D < 0 \/ height P <= D -> D' < 0 \/ height P <= D' ->
  minimax P D M = minimax P D' M.
Proof. apply minimax_deep. Qed.

Lemma plain_search_depth_saturates_witness :
  (2 < 0 \/ height midgame <= 2) /\ (- 1 < 0 \/ height midgame <= - 1)
  /\ minimax midgame 2 MarkX = minimax midgame (- 1) MarkX.
Proof.
  assert (H : 2 < 0 \/ height midgame <= 2)
    by (right; vm_compute; discriminate).
  assert (H' : - 1 < 0 \/ height midgame <= - 1) by (left; reflexivity).
  split; [exact H|]. split; [exact H'|].
  exact (plain_search_depth_saturates midgame 2 (- 1) MarkX H H').
Defined.

Lemma maxLoop_ext (inner inner' : State -> Z -> Z -> Z) (rest : list State) :
  Forall (fun s => forall a b, inner s a b = inner' s a b) rest ->
  forall beta cb a,
    maxLoop inner beta rest cb a = maxLoop inner' beta rest cb a.
Proof.
  induction 1 as [|s rest Hs _ IH]; intros beta cb a; simpl; [reflexivity|].
  now rewrite Hs, IH.
Qed.

Lemma minLoop_ext (inner inner' : State -> Z -> Z -> Z) (rest : list State) :
  Forall (fun s => forall a b, inner s a b = inner' s a b) rest ->
  forall alpha cb b,
    minLoop inner alpha rest cb b = minLoop inner' alpha rest cb b.
Proof.
  induction 1 as [|s rest Hs _ IH]; intros alpha cb b; simpl; [reflexivity|].
  now rewrite Hs, IH.
Qed.

Lemma minimaxAlphaBetaInner_deep (M : Player) (P : State) :
  forall D D' a b, D < 0 \/ height P <= D -> D' < 0 \/ height P <= D' ->
    minimaxAlphaBetaInner M P D a b = minimaxAlphaBetaInner M P D' a b.
Proof.
  induction P as [mover lines succs IH] using State_tree_ind.
  intros D D' a b H H'.
  rewrite !minimaxAlphaBetaInner_unfold, (isBaseCase_deep _ D D' H H').
  cbn [nextStates nextMovePlayer].
  assert (Hs : Forall (fun s => forall a b,
                 minimaxAlphaBetaInner M s (D - 1) a b
                 = minimaxAlphaBetaInner M s (D' - 1) a b) succs).
  { rewrite Forall_forall in IH |- *. intros S IS a' b'.
    apply (IH S IS); now apply (deep_successor (mkState mover lines succs)). }
  now rewrite (maxLoop_ext _ _ succs Hs), (minLoop_ext _ _ succs Hs).
Qed.

(** X14.  The same holds for the pruned search: at depths that are negative
    or at least the height of the tree, [minimaxAlphaBeta] does not depend
    on the depth. *)
Theorem pruned_search_depth_saturates (P : State) (D D' : Z) (M : Player) :
  D < 0 \/ height P <= D -> D' < 0 \/ height P <= D' ->
  minimaxAlphaBeta P D M = minimaxAlphaBeta P D' M.
Proof. apply minimaxAlphaBetaInner_deep. Qed.

Lemma pruned_search_depth_saturates_witness :
  (2 < 0 \/ height midgame <= 2) /\ (DEPTH < 0 \/ height midgame <= DEPTH)
  /\ minimaxAlphaBeta midgame 2 MarkX = minimaxAlphaBeta midgame DEPTH MarkX.
Proof.
  assert (H : 2 < 0 \/ height midgame <= 2)
    by (right; vm_compute; discriminate).
  assert (H' : DEPTH < 0 \/ height midgame <= DEPTH)
    by (right; vm_compute; discriminate).
  split; [exact H|]. split; [exact H'|].
  exact (pruned_search_depth_saturates midgame 2 DEPTH MarkX H H').
Defined.

(** ** What the pruned search evaluates *)

Lemma subseq_nil_l {A : Type} (l : list A) : subseq [] l.
Proof. induction l; constructor; assumption. Qed.

Lemma subseq_refl {A : Type} (l : list A) : subseq l l.
Proof. induction l; constructor; assumption. Qed.

Lemma subseq_app {A : Type} (l1 l2 l1' l2' : list A) :
  subseq l1 l2 -> subseq l1' l2' -> subseq (l1 ++ l1') (l2 ++ l2').
Proof.
  intros H H'. induction H; simpl; try constructor; assumption.
Qed.

Lemma subseq_app_l {A : Type} (l1 l2 l3 : list A) :
  subseq l1 l2 -> subseq l1 (l2 ++ l3).
Proof.
  intros H. rewrite <- (app_nil_r l1).
  apply subseq_app; [assumption | apply subseq_nil_l].
Qed.

Lemma subseq_length {A : Type} (l1 l2 : list A) :
  subseq l1 l2 -> (length l1 <= length l2)%nat.
Proof. induction 1; simpl; lia. Qed.

Lemma minimaxAlphaBetaInnerSeen_unfold (M : Player) (state : State)
  (depth alpha beta : Z) :
  minimaxAlphaBetaInnerSeen M state depth alpha beta =
  if isBaseCase state depth then (heuristic state M, [state])
  else if Player_eqb (nextMovePlayer state) M
       then maxLoopSeen
              (fun s a b => minimaxAlphaBetaInnerSeen M s (depth - 1) a b)
              beta (nextStates state) alpha alpha
       else minLoopSeen
              (fun s a b => minimaxAlphaBetaInnerSeen M s (depth - 1) a b)
              alpha (nextStates state) beta beta.
Proof. destruct state; reflexivity. Qed.

Section Seen.
Variable innerSeen : State -> Z -> Z -> Z * list State.
Variable leaves : State -> list State.

Lemma maxLoopSeen_fst (rest : list State) :
  forall beta cb a,
    fst (maxLoopSeen innerSeen beta rest cb a)
    = maxLoop (fun s a b => fst (innerSeen s a b)) beta rest cb a.
Proof.
  induction rest as [|s rest IH]; intros beta cb a; simpl; [reflexivity|].
  destruct (innerSeen s a beta) as [v seen]. cbn [fst].
  destruct (Z.max v a >? beta); [reflexivity|].
  rewrite <- IH. now destruct (maxLoopSeen innerSeen beta rest _ _).
Qed.

Lemma minLoopSeen_fst (rest : list State) :
  forall alpha cb b,
    fst (minLoopSeen innerSeen alpha rest cb b)
    = minLoop (fun s a b => fst (innerSeen s a b)) alpha rest cb b.
Proof.
  induction rest as [|s rest IH]; intros alpha cb b; simpl; [reflexivity|].
  destruct (innerSeen s alpha b) as [v seen]. cbn [fst].
  destruct (alpha >? Z.min v b); [reflexivity|].
  rewrite <- IH. now destruct (minLoopSeen innerSeen alpha rest _ _).
Qed.

Lemma maxLoopSeen_subseq (rest : list State) :
  Forall (fun s => forall a b, subseq (snd (innerSeen s a b)) (leaves s))
    rest ->
  forall beta cb a,
    subseq (snd (maxLoopSeen innerSeen beta rest cb a)) (flat_map leaves rest).
Proof.
  induction 1 as [|s rest Hs _ IH]; intros beta cb a; simpl; [constructor|].
  specialize (Hs a beta). destruct (innerSeen s a beta) as [v seen].
  cbn [snd] in Hs. destruct (Z.max v a >? beta).
  - now apply subseq_app_l.
  - specialize (IH beta (Z.max v cb) (Z.max v a)).
    destruct (maxLoopSeen innerSeen beta rest _ _) as [r seen'].
    now apply subseq_app.
Qed.

Lemma minLoopSeen_subseq (rest : list State) :
  Forall (fun s => forall a b, subseq (snd (innerSeen s a b)) (leaves s))
    rest ->
  forall alpha cb b,
    subseq (snd (minLoopSeen innerSeen alpha rest cb b))
      (flat_map leaves rest).
Proof.
  induction 1 as [|s rest Hs _ IH]; intros alpha cb b; simpl; [constructor|].
  specialize (Hs alpha b). destruct (innerSeen s alpha b) as [v seen].
  cbn [snd] in Hs. destruct (alpha >? Z.min v b).
  - now apply subseq_app_l.
  - specialize (IH alpha (Z.min v cb) (Z.min v b)).
    destruct (minLoopSeen innerSeen alpha rest _ _) as [r seen'].
    now apply subseq_app.
Qed.

Lemma maxLoopSeen_nonempty (s : State) (rest : list State) :
  (forall a b, snd (innerSeen s a b) <> []) ->
  forall beta cb a, snd (maxLoopSeen innerSeen beta (s :: rest) cb a) <> [].
Proof.
  intros Hs beta cb a. simpl. specialize (Hs a beta).
  destruct (innerSeen s a beta) as [v seen]. cbn [snd] in Hs.
  destruct (Z.max v a >? beta); [assumption|].
  destruct (maxLoopSeen innerSeen beta rest _ _) as [r seen']. cbn [snd].
  intros E. apply app_eq_nil in E. now destruct E.
Qed.

Lemma minLoopSeen_nonempty (s : State) (rest : list State) :
  (forall a b, snd (innerSeen s a b) <> []) ->
  forall alpha cb b, snd (minLoopSeen innerSeen alpha (s :: rest) cb b) <> [].
Proof.
  intros Hs alpha cb b. simpl. specialize (Hs alpha b).
  destruct (innerSeen s alpha b) as [v seen]. cbn [snd] in Hs.
  destruct (alpha >? Z.min v b); [assumption|].
  destruct (minLoopSeen innerSeen alpha rest _ _) as [r seen']. cbn [snd].
  intros E. apply app_eq_nil in E. now destruct E.
Qed.
End Seen.

Lemma minimaxAlphaBetaInnerSeen_fst (M : Player) (P : State) :
  forall D a b,
    fst (minimaxAlphaBetaInnerSeen M P D a b) = minimaxAlphaBetaInner M P D a b.
Proof.
  induction P as [mover lines succs IH] using State_tree_ind. intros D a b.
  rewrite minimaxAlphaBetaInnerSeen_unfold, minimaxAlphaBetaInner_unfold.
  destruct (isBaseCase (mkState mover lines succs) D); [reflexivity|].
  cbn [nextStates nextMovePlayer].
  assert (Hs : Forall (fun s => forall a b,
                 fst (minimaxAlphaBetaInnerSeen M s (D - 1) a b)
                 = minimaxAlphaBetaInner M s (D - 1) a b) succs).
  { revert IH. apply Forall_impl. intros s Hs a' b'. apply Hs. }
  destruct (Player_eqb mover M).
  - rewrite maxLoopSeen_fst. now apply maxLoop_ext.
  - rewrite minLoopSeen_fst. now apply minLoop_ext.
Qed.

Lemma minimaxAlphaBetaInnerSeen_subseq (M : Player) (P : State) :
  forall D a b,
    subseq (snd (minimaxAlphaBetaInnerSeen M P D a b)) (cutoffLeaves P D).
Proof.
  induction P as [mover lines succs IH] using State_tree_ind. intros D a b.
  rewrite minimaxAlphaBetaInnerSeen_unfold, cutoffLeaves_unfold.
  destruct (isBaseCase (mkState mover lines succs) D); [apply subseq_refl|].
  cbn [nextStates nextMovePlayer].
  assert (Hs : Forall (fun s => forall a b,
                 subseq (snd (minimaxAlphaBetaInnerSeen M s (D - 1) a b))
                   (cutoffLeaves s (D - 1))) succs).
  { revert IH. apply Forall_impl. intros s Hs a' b'. apply Hs. }
  destruct (Player_eqb mover M).
  - now apply (maxLoopSeen_subseq _ (fun s => cutoffLeaves s (D - 1))).
  - now apply (minLoopSeen_subseq _ (fun s => cutoffLeaves s (D - 1))).
Qed.

Lemma minimaxAlphaBetaInnerSeen_nonempty (M : Player) (P : State) :
  forall D a b, snd (minimaxAlphaBetaInnerSeen M P D a b) <> [].
Proof.
  induction P as [mover lines succs IH] using State_tree_ind. intros D a b.
  rewrite minimaxAlphaBetaInnerSeen_unfold.
  destruct (isBaseCase (mkState mover lines succs) D) eqn:B; [discriminate|].
  apply isBaseCase_false_iff in B. destruct B as [_ NE].
  cbn [nextStates nextMovePlayer] in *.
  destruct succs as [|s rest]; [congruence|].
  inversion IH as [|? ? Hs _]; subst.
  destruct (Player_eqb mover M).
  - apply maxLoopSeen_nonempty. intros a' b'. apply Hs.
  - apply minLoopSeen_nonempty. intros a' b'. apply Hs.
Qed.

(** X15.  The pruned search calls [heuristic] on a subsequence of the
    positions at which the plain search stops, in the same left-to-right
    order, and so never more often than the plain search; it calls it at
    least once.  The record of the calls does not disturb the score. *)
Theorem pruned_search_evaluates_subsequence_of_leaves (M : Player) (P : State)
  (D alpha beta : Z) :
  fst (minimaxAlphaBetaInnerSeen M P D alpha beta)
  = minimaxAlphaBetaInner M P D alpha beta
  /\ subseq (snd (minimaxAlphaBetaInnerSeen M P D alpha beta))
       (cutoffLeaves P D)
  /\ (1 <= length (snd (minimaxAlphaBetaInnerSeen M P D alpha beta))
      <= length (cutoffLeaves P D))%nat.
Proof.
  split; [apply minimaxAlphaBetaInnerSeen_fst|].
  pose proof (minimaxAlphaBetaInnerSeen_subseq M P D alpha beta) as HS.
  split; [exact HS|]. split.
  - pose proof (minimaxAlphaBetaInnerSeen_nonempty M P D alpha beta) as NE.
    destruct (snd (minimaxAlphaBetaInnerSeen M P D alpha beta));
      [congruence | simpl; lia].
  - now apply subseq_length.
Qed.

(** On [midgame] the pruned search skips one of the six evaluations of the
    plain search: the second answer to the second move. *)
Example pruned_search_skips_on_midgame :
  snd (minimaxAlphaBetaInnerSeen MarkX midgame 2 (- 10000000) 10000000)
  = [twos 3; twos 5; twos 2; twos 4; twos 1]
  /\ cutoffLeaves midgame 2 = [twos 3; twos 5; twos 2; twos 9; twos 4; twos 1].
Proof. split; reflexivity. Qed.

(** ** Longer lines outweigh shorter ones *)

(** X16.  For line counts that keep the evaluator exact ([countsExact]) and
    with fewer than 100 lines of length 2 and of length 3 for each player,
    the evaluator orders positions by the lines of four first and by the
    lines of three next: more lines of four than the opponent give a
    positive score whatever the shorter lines are, and with equally many
    lines of four, more lines of three give a positive score. *)
Theorem heuristic_longer_lines_dominate (P : State) (M : Player) :
  countsExact P ->
  (forall p, 0 <= numLines P 2 p < 100) ->
  (forall p, 0 <= numLines P 3 p < 100) ->
  (numLines P 4 (other M) < numLines P 4 M -> 0 < heuristic P M)
  /\ (numLines P 4 (other M) = numLines P 4 M ->
      numLines P 3 (other M) < numLines P 3 M -> 0 < heuristic P M).
Proof.
  intros _ H2 H3. rewrite heuristic_adv. unfold adv.
  pose proof (H2 M). pose proof (H2 (other M)).
  pose proof (H3 M). pose proof (H3 (other M)).
  change (100 ^ 2) with 10000. change (100 ^ 3) with 1000000.
  change (100 ^ 4) with 100000000. split; intros; lia.
Qed.

Lemma heuristic_longer_lines_dominate_witness :
  countsExact threesAgainstTwos
  /\ (forall p, 0 <= numLines threesAgainstTwos 2 p < 100)
  /\ (forall p, 0 <= numLines threesAgainstTwos 3 p < 100)
  /\ (numLines threesAgainstTwos 4 (other MarkO)
      < numLines threesAgainstTwos 4 MarkO ->
      0 < heuristic threesAgainstTwos MarkO)
  /\ (numLines threesAgainstTwos 4 (other MarkO)
      = numLines threesAgainstTwos 4 MarkO ->
      numLines threesAgainstTwos 3 (other MarkO)
      < numLines threesAgainstTwos 3 MarkO ->
      0 < heuristic threesAgainstTwos MarkO).
Proof.
  assert (H2 : forall p, 0 <= numLines threesAgainstTwos 2 p < 100)
    by (intros []; vm_compute; split; (discriminate || reflexivity)).
  assert (H3 : forall p, 0 <= numLines threesAgainstTwos 3 p < 100)
    by (intros []; vm_compute; split; (discriminate || reflexivity)).
  split; [exact countsExact_threesAgainstTwos|].
  split; [exact H2|]. split; [exact H3|].
  exact (heuristic_longer_lines_dominate threesAgainstTwos MarkO
           countsExact_threesAgainstTwos H2 H3).
Defined.
